(** * Shallow embedding of the custom Keras layers of keras_fastqa (layers.py)

    Tensors are nested lists, one list per axis; a batch is a list of
    examples, and every layer acts example by example.  Float tensors are
    modelled with real numbers.  Token ids are [Z] (int32).  Lengths are
    [nat].

    The masking idiom [logits + tf.float32.min * (1 - mask)] is modelled
    by the logit type [flt]: a valid logit stays [Fin l]; a masked one
    becomes [Fmin], the value [tf.float32.min], which absorbs any logit of
    ordinary magnitude (the ulp of float32 at 3.4e38 is about 2e31).
    [tf.nn.softmax] subtracts the row maximum before [exp]: a masked entry
    minus a finite maximum underflows to weight 0, and a masked entry minus
    a masked maximum is [exp 0 = 1]. *)

From Stdlib Require Import Reals Lra Lia List Permutation ZArith Bool.
Import ListNotations.
Open Scope R_scope.

(** ** Generic list helpers *)

Definition sumR (l : list R) : R := fold_right Rplus 0 l.

Fixpoint zipWith {A B C : Type} (f : A -> B -> C) (l1 : list A) (l2 : list B)
  : list C :=
  match l1, l2 with
  | a :: t1, b :: t2 => f a b :: zipWith f t1 t2
  | _, _ => []
  end.

(** [K.dot] of a vector with a [(dim, 1)] kernel. *)
Definition dot (x w : list R) : R := sumR (zipWith Rmult x w).

(** [tf.to_float] / [dtype=tf.float32] of a boolean. *)
Definition b2f (b : bool) : R := if b then 1 else 0.

(** ** [tf.sequence_mask(lengths, maxlen)]: [range(maxlen) < length]. *)

Definition sequence_mask (len maxlen : nat) : list bool :=
  map (fun i => Nat.ltb i len) (seq 0 maxlen).

Definition sequence_mask_batch (lens : list nat) (maxlen : nat)
  : list (list bool) :=
  map (fun l => sequence_mask l maxlen) lens.

(** ** Masked logits and [tf.nn.softmax] *)

Inductive flt : Type :=
| Fin (r : R)
| Fmin.

(** [logit + tf.float32.min * (1 - mask)] for a 0/1 mask value. *)
Definition add_mask_bias (l : R) (m : bool) : flt :=
  if m then Fin l else Fmin.

Definition fmax (a b : flt) : flt :=
  match a, b with
  | Fmin, y => y
  | x, Fmin => x
  | Fin x, Fin y => Fin (Rmax x y)
  end.

Definition reduce_max (xs : list flt) : flt := fold_right fmax Fmin xs.

(** [exp (x - m)] in float32, [m] being the row maximum. *)
Definition exp_shift (m x : flt) : R :=
  match x, m with
  | Fin r, Fin mm => exp (r - mm)
  | Fmin, Fin _ => 0
  | Fmin, Fmin => 1
  | Fin r, Fmin => exp r
  end.

Definition softmax (xs : list flt) : list R :=
  let m := reduce_max xs in
  let e := map (exp_shift m) xs in
  map (fun v => v / sumR e) e.

(** Logits of one example masked by its length along the sequence axis. *)
Definition mask_logits (logits : list R) (len : nat) : list flt :=
  zipWith add_mask_bias logits (sequence_mask len (length logits)).

Definition masked_softmax (logits : list R) (len : nat) : list R :=
  softmax (mask_logits logits len).

(** Normaliser of the valid part for a given row maximum [mm]. *)
Definition valid_mass (mm : R) (v : list R) : R :=
  sumR (map (fun r => exp (r - mm)) v).

(** ** [WeightedSum.call] for one example: [x] is [(seq_len, dim)], [w] the
    [(dim, 1)] kernel. *)

Definition weighted_sum_alpha (w : list R) (x : list (list R)) (len : nat)
  : list R :=
  masked_softmax (map (fun row => dot row w) x) len.

(** [tf.squeeze(tf.matmul(alpha, x, transpose_a=True), axis=1)]. *)
Definition weighted_rows (dim : nat) (alpha : list R) (x : list (list R))
  : list R :=
  map (fun d => sumR (zipWith (fun a row => a * nth d row 0) alpha x))
      (seq 0 dim).

Definition weighted_sum (w : list R) (x : list (list R)) (len : nat)
  : list R :=
  weighted_rows (length w) (weighted_sum_alpha w x len) x.

Definition weighted_sum_batch (w : list R) (xs : list (list (list R)))
  (lens : list nat) : list (list R) :=
  zipWith (weighted_sum w) xs lens.

(** ** [PositionPointer.call] for one example.  [W] is the [(dim, hidden)]
    kernel of the first [conv1d] (width 1), [b] its bias, [v] the
    [(hidden, 1)] kernel of the second. *)

Definition relu (r : R) : R := Rmax 0 r.

Definition conv1x1 (W : list (list R)) (hidden : nat) (xrow : list R)
  : list R :=
  map (fun j => sumR (zipWith (fun xk wk => xk * nth j wk 0) xrow W))
      (seq 0 hidden).

Definition pointer_logit (W : list (list R)) (b v : list R) (xrow : list R)
  : R :=
  let pos := map relu (zipWith Rplus (conv1x1 W (length b) xrow) b) in
  dot pos v.

Definition position_pointer (W : list (list R)) (b v : list R)
  (x : list (list R)) (len : nat) : list R :=
  masked_softmax (map (pointer_logit W b v) x) len.

Definition position_pointer_batch (W : list (list R)) (b v : list R)
  (xs : list (list (list R))) (lens : list nat) : list (list R) :=
  zipWith (position_pointer W b v) xs lens.

(** ** [SequenceLength]: [reduce_sum(to_int32(cast(x, bool)), axis=1)]. *)

Definition cast_bool (t : Z) : bool := negb (Z.eqb t 0).

Definition sequence_length_row (row : list Z) : nat :=
  fold_right Nat.add 0%nat
    (map (fun b : bool => if b then 1%nat else 0%nat) (map cast_bool row)).

Definition sequence_length (x : list (list Z)) : list nat :=
  map sequence_length_row x.

(** The contract of the spec (section 4.1): the number of positions whose
    token differs from a designated [pad_id]. *)
Definition count_non_pad (pad_id : Z) (row : list Z) : nat :=
  length (filter (fun t => negb (Z.eqb t pad_id)) row).

(** ** [WordInQuestionB] for one example. *)

Definition wiq_b (question context : list Z) (context_len : nat)
  : list (list R) :=
  let wiq := map (fun ct => b2f (existsb (fun qt => Z.eqb ct qt) question))
                 context in
  let mask := map b2f (sequence_mask context_len (length context)) in
  map (fun v => [v]) (zipWith Rmult wiq mask).

Definition wiq_b_batch (questions contexts : list (list Z))
  (context_lens : list nat) : list (list (list R)) :=
  zipWith (fun qc cl => wiq_b (fst qc) (snd qc) cl)
          (combine questions contexts) context_lens.

(** ** [WordInQuestionW] for one example: [question] is [(q_len, dim)],
    [context] is [(c_len, dim)], [w] the [(dim, 1)] kernel.  The similarity
    matrix is indexed [(context, question)]. *)

Definition col (j : nat) (m : list (list flt)) : list flt :=
  map (fun row => nth j row Fmin) m.

(** [tf.nn.softmax(m, axis=1)] on a [(rows, ncols)] matrix: each column is
    normalised across the rows. *)
Definition softmax_axis1 (ncols : nat) (m : list (list flt))
  : list (list R) :=
  let cols := map (fun j => softmax (col j m)) (seq 0 ncols) in
  map (fun i => map (fun j => nth i (nth j cols []) 0) (seq 0 ncols))
      (seq 0 (length m)).

Definition wiq_w_similarity (w : list R) (question context : list (list R))
  : list (list R) :=
  map (fun crow => map (fun qrow => dot (zipWith Rmult crow qrow) w)
                       question) context.

(** [tf.matmul(context_mask, question_mask)] of a 0/1 column and a 0/1 row:
    entry [(c, q)] is 1 exactly when both are 1. *)
Definition pair_mask (qmax cmax qlen clen : nat) : list (list bool) :=
  map (fun cm => map (fun qm => andb cm qm) (sequence_mask qlen qmax))
      (sequence_mask clen cmax).

Definition masked_row_sum (srow : list R) (mrow : list bool) : R :=
  sumR (zipWith (fun s m => s * b2f m) srow mrow).

(** [similarity + tf.float32.min * (1 - mask)]. *)
Definition wiq_w_logits (w : list R) (question context : list (list R))
  (question_len context_len : nat) : list (list flt) :=
  zipWith (zipWith add_mask_bias)
          (wiq_w_similarity w question context)
          (pair_mask (length question) (length context)
                     question_len context_len).

Definition wiq_w (w : list R) (question context : list (list R))
  (question_len context_len : nat) : list (list R) :=
  let qmax := length question in
  let mask := pair_mask qmax (length context) question_len context_len in
  let similarity := wiq_w_logits w question context question_len context_len in
  let soft := softmax_axis1 qmax similarity in
  map (fun s => [s]) (zipWith masked_row_sum soft mask).

Definition wiq_w_batch (w : list R) (questions contexts : list (list (list R)))
  (question_lens context_lens : list nat) : list (list (list R)) :=
  zipWith (fun qc ls => wiq_w w (fst qc) (snd qc) (fst ls) (snd ls))
          (combine questions contexts) (combine question_lens context_lens).

(** The reading of the spec sentence "normalizes over the question axis":
    the softmax taken along each context row, across question positions. *)
Definition wiq_w_question_axis (w : list R) (question context : list (list R))
  (question_len context_len : nat) : list (list R) :=
  let qmax := length question in
  let mask := pair_mask qmax (length context) question_len context_len in
  let similarity := wiq_w_logits w question context question_len context_len in
  let soft := map softmax similarity in
  map (fun s => [s]) (zipWith masked_row_sum soft mask).

(** ** [IndexSelect] for one example: [x] is [(seq_len, dim)]. *)

(** [K.one_hot(i, n)]: [tf.one_hot] yields the zero vector for an index
    outside [[0, n)]. *)
Definition one_hot (i : Z) (n : nat) : list R :=
  map (fun j => b2f (Z.eqb i (Z.of_nat j))) (seq 0 n).

(** [tf.reduce_sum(m, axis=1)] on a [(seq_len, dim)] example. *)
Definition reduce_sum_rows (dim : nat) (m : list (list R)) : list R :=
  map (fun d => sumR (map (fun row => nth d row 0) m)) (seq 0 dim).

(** [tf.to_int32] on the int64 index that [Argmax] produces: the value is
    truncated to its low 32 bits, read as a signed int32. *)
Definition to_int32 (i : Z) : Z :=
  let m := Z.modulo i (2 ^ 32) in
  if Z.ltb m (2 ^ 31) then m else m - 2 ^ 32.

(** The index [i] is one example's entry of the [(batch, 1)] index tensor
    (int64, as [Argmax] gives it); [func] casts it with [tf.to_int32]
    before [K.one_hot]. *)
Definition index_select (dim : nat) (x : list (list R)) (i : Z) : list R :=
  let mask := one_hot (to_int32 i) (length x) in
  reduce_sum_rows dim (zipWith (fun row m => map (fun v => v * m) row) x mask).

Definition index_select_batch (dim : nat) (xs : list (list (list R)))
  (indices : list Z) : list (list R) :=
  zipWith (index_select dim) xs indices.

(** ** [Argmax] for one example: [tf.expand_dims(tf.argmax(x, axis=-1), -1)].
    The scan keeps the first maximal entry; TF leaves the choice among tied
    maxima open, and the lemmas below only use that the index is the
    position of a maximal entry.  [tf.argmax] of an empty axis is an
    error, modelled by [None]. *)

Fixpoint argmax_from (l : list R) (i best : nat) (bv : R) : nat * R :=
  match l with
  | [] => (best, bv)
  | a :: t =>
      if Rlt_dec bv a then argmax_from t (S i) i a
      else argmax_from t (S i) best bv
  end.

Definition argmax (x : list R) : option nat :=
  match x with
  | [] => None
  | a :: t => Some (fst (argmax_from t 1 0 a))
  end.

Definition argmax_layer (x : list R) : option (list Z) :=
  match argmax x with
  | Some i => Some [Z.of_nat i]
  | None => None
  end.

(** ** [Backward.call] for one example.  [tf.reverse_sequence] reverses the
    first [len] entries and keeps the rest; it fails when [len] exceeds the
    sequence dimension. *)

Definition reverse_sequence {A : Type} (x : list A) (len : nat)
  : option (list A) :=
  if Nat.leb len (length x)
  then Some (rev (firstn len x) ++ skipn len x)
  else None.

Definition backward {A B : Type} (layer : list A -> list B) (x : list A)
  (len : nat) : option (list B) :=
  match reverse_sequence x len with
  | Some xr => reverse_sequence (layer xr) len
  | None => None
  end.

(** * Lemmas *)

(** ** Lists of reals *)

Lemma sumR_app (l1 l2 : list R) : sumR (l1 ++ l2) = sumR l1 + sumR l2.
Proof.
  induction l1 as [|a l1 IH]; simpl; [lra|]. unfold sumR in *. rewrite IH. lra.
Qed.

Lemma sumR_repeat0 (k : nat) : sumR (repeat 0 k) = 0.
Proof. induction k as [|k IH]; simpl; [reflexivity|]. unfold sumR in *. rewrite IH. lra. Qed.

Lemma sumR_map_div (l : list R) (s : R) :
  sumR (map (fun v => v / s) l) = sumR l / s.
Proof.
  induction l as [|a l IH]; simpl; unfold Rdiv in *; [lra|].
  unfold sumR in *. rewrite IH. lra.
Qed.

Lemma sumR_nonneg (l : list R) : Forall (fun v => 0 <= v) l -> 0 <= sumR l.
Proof.
  induction 1 as [|a l Ha _ IH]; simpl; unfold sumR in *; lra.
Qed.

Lemma sumR_map_zero {A : Type} (f : A -> R) (l : list A) :
  (forall a, In a l -> f a = 0) -> sumR (map f l) = 0.
Proof.
  induction l as [|a l IH]; intros H; simpl; [reflexivity|].
  unfold sumR in *. rewrite (H a) by (simpl; auto).
  rewrite IH by (intros; apply H; simpl; auto). lra.
Qed.

Lemma sumR_map_ext {A : Type} (f g : A -> R) (l : list A) :
  (forall a, In a l -> f a = g a) -> sumR (map f l) = sumR (map g l).
Proof. intros H. f_equal. apply map_ext_in. exact H. Qed.

Lemma length_zipWith {A B C : Type} (f : A -> B -> C) l1 l2 :
  length (zipWith f l1 l2) = Nat.min (length l1) (length l2).
Proof.
  revert l2; induction l1 as [|a l1 IH]; intros [|b l2]; simpl; auto.
Qed.

Lemma nth_zipWith {A B C : Type} (f : A -> B -> C) l1 l2 i da db dc :
  (i < length l1)%nat -> (i < length l2)%nat ->
  nth i (zipWith f l1 l2) dc = f (nth i l1 da) (nth i l2 db).
Proof.
  revert l2 i; induction l1 as [|a l1 IH]; intros [|b l2] [|i] H1 H2;
    simpl in *; try lia; auto.
  apply IH; lia.
Qed.

Lemma nth_map_seq {A : Type} (f : nat -> A) n i d :
  (i < n)%nat -> nth i (map f (seq 0 n)) d = f i.
Proof.
  intros H. rewrite nth_indep with (d' := f 0%nat) by (rewrite length_map, length_seq; lia).
  rewrite map_nth, seq_nth by lia. reflexivity.
Qed.

Lemma nth_map_lt {A B : Type} (f : A -> B) (l : list A) (k : nat) (d : A)
  (db : B) : (k < length l)%nat -> nth k (map f l) db = f (nth k l d).
Proof.
  intros H. rewrite nth_indep with (d' := f d) by (rewrite length_map; exact H).
  apply map_nth.
Qed.

(** ** [sequence_mask] *)

Lemma length_sequence_mask len n : length (sequence_mask len n) = n.
Proof. unfold sequence_mask. rewrite length_map, length_seq. reflexivity. Qed.

Lemma nth_sequence_mask len n i d :
  (i < n)%nat -> nth i (sequence_mask len n) d = Nat.ltb i len.
Proof.
  intros H. unfold sequence_mask.
  apply (nth_map_seq (fun j => Nat.ltb j len)). exact H.
Qed.

Lemma sequence_mask_split len n :
  sequence_mask len n = repeat true (Nat.min len n) ++ repeat false (n - len).
Proof.
  apply nth_ext with (d := false) (d' := false).
  - rewrite length_sequence_mask, length_app, !repeat_length. lia.
  - intros i Hi. rewrite length_sequence_mask in Hi.
    rewrite nth_sequence_mask by exact Hi.
    destruct (Nat.ltb_spec i len).
    + rewrite app_nth1 by (rewrite repeat_length; lia).
      rewrite nth_repeat_lt by lia. reflexivity.
    + rewrite app_nth2 by (rewrite repeat_length; lia).
      rewrite nth_repeat_lt by (rewrite repeat_length; lia). reflexivity.
Qed.

Lemma zipWith_mask_bias (ls : list R) (k j : nat) :
  (k + j = length ls)%nat ->
  zipWith add_mask_bias ls (repeat true k ++ repeat false j)
  = map Fin (firstn k ls) ++ repeat Fmin j.
Proof.
  revert k j; induction ls as [|a ls IH]; intros k j H.
  - simpl in H. assert (k = 0%nat) by lia; assert (j = 0%nat) by lia.
    subst. reflexivity.
  - destruct k as [|k].
    + simpl in *. subst j. simpl. f_equal.
      clear IH. induction ls as [|b ls IH']; simpl; [reflexivity|].
      f_equal. exact IH'.
    + simpl in *. f_equal. apply IH. lia.
Qed.

Lemma firstn_min_length {A : Type} (len : nat) (l : list A) :
  firstn (Nat.min len (length l)) l = firstn len l.
Proof.
  destruct (Nat.le_ge_cases len (length l)).
  - rewrite Nat.min_l by lia. reflexivity.
  - rewrite Nat.min_r by lia. rewrite !firstn_all2 by lia. reflexivity.
Qed.

Lemma mask_logits_split (ls : list R) (len : nat) :
  mask_logits ls len
  = map Fin (firstn len ls) ++ repeat Fmin (length ls - len).
Proof.
  unfold mask_logits. rewrite sequence_mask_split, zipWith_mask_bias by lia.
  rewrite firstn_min_length. reflexivity.
Qed.

(** ** [softmax] of a masked row *)

Lemma reduce_max_fin_app (v : list R) (k : nat) :
  v <> [] -> exists mm, reduce_max (map Fin v ++ repeat Fmin k) = Fin mm.
Proof.
  intros Hv. unfold reduce_max.
  destruct v as [|a v]; [congruence|]. simpl.
  destruct (fold_right fmax Fmin (map Fin v ++ repeat Fmin k)); simpl; eauto.
Qed.

Lemma valid_mass_pos mm v : v <> [] -> 0 < valid_mass mm v.
Proof.
  intros Hv. destruct v as [|a v]; [congruence|]. unfold valid_mass. simpl.
  assert (0 <= sumR (map (fun r => exp (r - mm)) v)).
  { apply sumR_nonneg. apply Forall_forall. intros x Hx.
    apply in_map_iff in Hx. destruct Hx as [r [<- _]].
    left. apply exp_pos. }
  pose proof (exp_pos (a - mm)). unfold sumR in *. lra.
Qed.

Lemma softmax_masked_row (v : list R) (k : nat) :
  v <> [] ->
  exists mm,
    softmax (map Fin v ++ repeat Fmin k)
    = map (fun r => exp (r - mm) / valid_mass mm v) v ++ repeat 0 k.
Proof.
  intros Hv. destruct (reduce_max_fin_app v k Hv) as [mm Hmm].
  exists mm. unfold softmax. rewrite Hmm.
  rewrite map_app, map_map. rewrite map_repeat. simpl.
  rewrite sumR_app, sumR_repeat0, Rplus_0_r, map_app, map_map, map_repeat.
  f_equal. unfold Rdiv. rewrite Rmult_0_l. reflexivity.
Qed.

Lemma sumR_softmax_valid (mm : R) (v : list R) :
  v <> [] ->
  sumR (map (fun r => exp (r - mm) / valid_mass mm v) v) = 1.
Proof.
  intros Hv. pose proof (valid_mass_pos mm v Hv).
  rewrite <- (map_map (fun r => exp (r - mm)) (fun e => e / valid_mass mm v)).
  rewrite sumR_map_div. fold (valid_mass mm v). field. lra.
Qed.

(** The masked softmax of one example: length, normalisation over the
    valid positions, and zero weight at every masked position. *)
Lemma masked_softmax_spec (logits : list R) (len : nat) :
  (1 <= len)%nat -> (1 <= length logits)%nat ->
  let a := masked_softmax logits len in
  length a = length logits /\
  sumR (firstn len a) = 1 /\
  (forall i, (len <= i < length logits)%nat -> nth i a 0 = 0).
Proof.
  intros Hlen Hn. unfold masked_softmax. rewrite mask_logits_split.
  set (v := firstn len logits).
  assert (Hv : v <> []).
  { unfold v. destruct logits as [|x l]; simpl in Hn; [lia|].
    destruct len; [lia|]. simpl. congruence. }
  assert (Hlv : length v = Nat.min len (length logits)) by apply length_firstn.
  destruct (softmax_masked_row v (length logits - len) Hv) as [mm ->].
  set (P := map (fun r => exp (r - mm) / valid_mass mm v) v).
  assert (HP : length P = length v) by (unfold P; apply length_map).
  repeat split.
  - rewrite length_app, repeat_length. lia.
  - destruct (Nat.le_ge_cases len (length logits)).
    + rewrite firstn_app, firstn_all2 by lia.
      replace (len - length P)%nat with 0%nat by lia. rewrite app_nil_r.
      apply sumR_softmax_valid. exact Hv.
    + replace (length logits - len)%nat with 0%nat by lia. simpl.
      rewrite app_nil_r, firstn_all2 by lia. apply sumR_softmax_valid. exact Hv.
  - intros i Hi. rewrite app_nth2 by lia.
    apply nth_repeat_lt. lia.
Qed.

Lemma sumR_repeat1 (k : nat) : sumR (repeat 1 k) = INR k.
Proof.
  induction k as [|k IH]; [reflexivity|].
  rewrite S_INR. simpl. unfold sumR in *. rewrite IH. lra.
Qed.

Lemma count_occ_repeat_bool (b c : bool) (k : nat) :
  count_occ bool_dec (repeat b k) c = if bool_dec b c then k else 0%nat.
Proof.
  induction k as [|k IH]; simpl; destruct (bool_dec b c); auto.
Qed.

Lemma sequence_mask_row (len maxlen : nat) :
  (len <= maxlen)%nat ->
  let m := sequence_mask len maxlen in
  length m = maxlen /\
  (forall i, (i < maxlen)%nat -> nth i m false = Nat.ltb i len) /\
  count_occ bool_dec m true = len /\
  firstn len m = repeat true len /\
  sumR (map b2f m) = INR len.
Proof.
  intros Hle m. unfold m.
  split; [apply length_sequence_mask|].
  split; [intros i Hi; apply nth_sequence_mask; exact Hi|].
  rewrite sequence_mask_split, Nat.min_l by exact Hle.
  split; [|split].
  - rewrite count_occ_app, !count_occ_repeat_bool. simpl. lia.
  - rewrite firstn_app, repeat_length, Nat.sub_diag. simpl.
    rewrite firstn_all2 by (rewrite repeat_length; lia). apply app_nil_r.
  - rewrite map_app, !map_repeat, sumR_app, sumR_repeat0. simpl.
    rewrite sumR_repeat1. lra.
Qed.

Lemma zipWith_app_l {A B C : Type} (f : A -> B -> C) l1 l2 (x : list B) :
  zipWith f (l1 ++ l2) x
  = zipWith f l1 (firstn (length l1) x) ++ zipWith f l2 (skipn (length l1) x).
Proof.
  revert x; induction l1 as [|a l1 IH]; intros x; simpl; [reflexivity|].
  destruct x as [|y x]; simpl.
  - destruct l2; reflexivity.
  - f_equal. apply IH.
Qed.

Lemma sumR_zipWith_zero_l (g : R -> list R -> R) (k : nat) (x : list (list R)) :
  (forall row, g 0 row = 0) -> sumR (zipWith g (repeat 0 k) x) = 0.
Proof.
  intros Hg. revert x; induction k as [|k IH]; intros [|row x]; simpl; auto.
  unfold sumR in *. rewrite Hg, IH. lra.
Qed.

Lemma firstn_agree {A : Type} (len : nat) (x1 x2 : list A) (d : A) :
  length x1 = length x2 ->
  (forall i, (i < len)%nat -> (i < length x1)%nat -> nth i x1 d = nth i x2 d) ->
  firstn len x1 = firstn len x2.
Proof.
  intros Hl H. apply nth_ext with (d := d) (d' := d).
  - rewrite !length_firstn. lia.
  - intros i Hi. rewrite length_firstn in Hi.
    rewrite !nth_firstn. destruct (Nat.ltb_spec i len); [|reflexivity].
    apply H; lia.
Qed.

(** ** Weighted sums over a masked softmax *)

Lemma weighted_sum_alpha_split (w : list R) (x : list (list R)) (len : nat) :
  (1 <= len)%nat -> (1 <= length x)%nat ->
  exists P, length P = Nat.min len (length x) /\
    weighted_sum_alpha w x len = P ++ repeat 0 (length x - len) /\
    (forall x', length x' = length x ->
       firstn len x' = firstn len x ->
       weighted_sum_alpha w x' len = P ++ repeat 0 (length x - len)).
Proof.
  intros Hlen Hn.
  set (f := fun row : list R => dot row w).
  assert (Hv : firstn len (map f x) <> []).
  { destruct x as [|r x]; simpl in Hn; [lia|].
    destruct len; [lia|]. simpl. congruence. }
  destruct (softmax_masked_row (firstn len (map f x)) (length x - len) Hv)
    as [mm Hmm].
  eexists. split; [|split].
  2: { unfold weighted_sum_alpha, masked_softmax. fold f.
       rewrite mask_logits_split, length_map. exact Hmm. }
  - rewrite length_map, length_firstn, length_map. reflexivity.
  - intros x' Hl Hf. unfold weighted_sum_alpha, masked_softmax. fold f.
    rewrite mask_logits_split, length_map, Hl, firstn_map, Hf, <- firstn_map.
    exact Hmm.
Qed.

Lemma weighted_rows_prefix (dim : nat) (P : list R) (k : nat) (x : list (list R)) :
  weighted_rows dim (P ++ repeat 0 k) x
  = weighted_rows dim P (firstn (length P) x).
Proof.
  unfold weighted_rows. apply map_ext. intros d.
  rewrite zipWith_app_l, sumR_app.
  rewrite sumR_zipWith_zero_l by (intros; lra). lra.
Qed.

(** * Claims *)

(** ** C8: the mask of a length [L <= max_len] is true exactly at the
    positions strictly below [L]: [max_len] entries, [L] of them true, all
    among the first [L], and the float mask sums to [L]; the batch mask has
    one row per example. *)
Theorem sequence_mask_exact (lens : list nat) (maxlen : nat) :
  Forall (fun L => (L <= maxlen)%nat) lens ->
  let ms := sequence_mask_batch lens maxlen in
  length ms = length lens /\
  (forall k, (k < length lens)%nat ->
    let m := nth k ms [] in
    let L := nth k lens 0%nat in
    length m = maxlen /\
    (forall i, (i < maxlen)%nat -> nth i m false = Nat.ltb i L) /\
    count_occ bool_dec m true = L /\
    firstn L m = repeat true L /\
    sumR (map b2f m) = INR L).
Proof.
  intros Hall ms. unfold ms, sequence_mask_batch.
  split; [apply length_map|].
  intros k Hk. cbv zeta.
  rewrite (nth_map_lt (fun l => sequence_mask l maxlen) lens k 0%nat)
    by exact Hk.
  apply sequence_mask_row.
  rewrite Forall_forall in Hall. apply Hall. apply nth_In. exact Hk.
Qed.

Lemma sequence_mask_exact_witness :
  Forall (fun L => (L <= 3)%nat) [2%nat; 0%nat] /\
  length (sequence_mask_batch [2%nat; 0%nat] 3) = 2%nat.
Proof.
  assert (H : Forall (fun L => (L <= 3)%nat) [2%nat; 0%nat])
    by (constructor; [lia | constructor; [lia | constructor]]).
  split; [exact H|].
  exact (proj1 (sequence_mask_exact [2%nat; 0%nat] 3 H)).
Defined.

(** At length 0 every position is masked: [reduce_max] is
    [tf.float32.min], each [exp] is [exp 0 = 1], and the weights are
    uniform. *)
Lemma reduce_max_all_min (n : nat) : reduce_max (repeat Fmin n) = Fmin.
Proof.
  induction n as [|n IH]; [reflexivity|].
  unfold reduce_max in *. simpl. rewrite IH. reflexivity.
Qed.

Lemma masked_softmax_len0 (ls : list R) :
  masked_softmax ls 0 = repeat (1 / INR (length ls)) (length ls).
Proof.
  unfold masked_softmax. rewrite mask_logits_split, Nat.sub_0_r.
  cbn [firstn map app]. unfold softmax.
  rewrite reduce_max_all_min, map_repeat. cbn [exp_shift].
  rewrite sumR_repeat1, map_repeat. reflexivity.
Qed.

Lemma sumR_zipWith_repeat (c : R) (d : nat) (x : list (list R)) :
  sumR (zipWith (fun a row => a * nth d row 0) (repeat c (length x)) x)
  = c * sumR (map (fun row => nth d row 0) x).
Proof.
  induction x as [|r x IH]; unfold sumR in *; simpl; [ring|].
  rewrite IH. ring.
Qed.

Lemma weighted_sum_len0 (w : list R) (x : list (list R)) :
  weighted_sum w x 0
  = map (fun d => sumR (map (fun row => nth d row 0) x) / INR (length x))
        (seq 0 (length w)).
Proof.
  unfold weighted_sum, weighted_sum_alpha.
  rewrite masked_softmax_len0, length_map. unfold weighted_rows.
  apply map_ext. intros d. rewrite sumR_zipWith_repeat. unfold Rdiv. ring.
Qed.

(** ** C3 (amended): for every example whose length is at least 1, the
    softmax weights of [WeightedSum] and the distribution of
    [PositionPointer] sum to exactly 1 over the positions below the length
    and are exactly 0 at every position at or beyond it.  At length 0 every
    position is masked and both are uniform, [1 / max_len] everywhere. *)
Theorem attention_weights_normalised (w : list R) (W : list (list R))
  (b v : list R) (x : list (list R)) (len : nat) :
  (1 <= length x)%nat ->
  ((1 <= len)%nat ->
   (let a := weighted_sum_alpha w x len in
    length a = length x /\ sumR (firstn len a) = 1 /\
    (forall i, (len <= i < length x)%nat -> nth i a 0 = 0)) /\
   (let p := position_pointer W b v x len in
    length p = length x /\ sumR (firstn len p) = 1 /\
    (forall i, (len <= i < length x)%nat -> nth i p 0 = 0))) /\
  (weighted_sum_alpha w x 0 = repeat (1 / INR (length x)) (length x) /\
   position_pointer W b v x 0 = repeat (1 / INR (length x)) (length x)).
Proof.
  intros Hn. split; [intros Hlen; split | split].
  - unfold weighted_sum_alpha.
    rewrite <- (length_map (fun row => dot row w) x).
    apply masked_softmax_spec; [exact Hlen|]. rewrite length_map. exact Hn.
  - unfold position_pointer.
    rewrite <- (length_map (pointer_logit W b v) x).
    apply masked_softmax_spec; [exact Hlen|]. rewrite length_map. exact Hn.
  - unfold weighted_sum_alpha. rewrite masked_softmax_len0, length_map.
    reflexivity.
  - unfold position_pointer. rewrite masked_softmax_len0, length_map.
    reflexivity.
Qed.

Lemma attention_weights_normalised_witness :
  (1 <= length [[0]; [1]])%nat /\
  sumR (firstn 1 (weighted_sum_alpha [1] [[0]; [1]] 1)) = 1 /\
  position_pointer [[1]] [0] [1] [[0]; [1]] 0 = [1 / 2; 1 / 2].
Proof.
  assert (Hn : (1 <= length [[0]; [1]])%nat) by (simpl; lia).
  split; [exact Hn|].
  destruct (attention_weights_normalised [1] [[1]] [0] [1] [[0]; [1]] 1 Hn)
    as [H1 [_ H0]].
  split.
  - destruct (H1 ltac:(lia)) as [[_ [H _]] _]. exact H.
  - assert (E : 1 / INR 2 = 1 / 2) by (simpl; lra).
    rewrite H0. cbn [length repeat]. rewrite E. reflexivity.
Defined.

(** C3 fails at length 0: every position is masked, [softmax] of the all
    [tf.float32.min] row is uniform, so the single masked position gets
    weight 1 and the (empty) valid positions sum to 0. *)
Lemma attention_len0_counterexample :
  weighted_sum_alpha [1] [[0]] 0 = [1] /\
  position_pointer [[1]] [0] [1] [[0]] 0 = [1] /\
  sumR (firstn 0 (weighted_sum_alpha [1] [[0]] 0)) = 0.
Proof.
  unfold weighted_sum_alpha, position_pointer, masked_softmax, mask_logits,
    softmax, sequence_mask, sumR.
  simpl. split; [|split]; try reflexivity; f_equal; field.
Qed.

(** ** C6: with one valid position, [PositionPointer] puts weight exactly 1
    on position 0 and exactly 0 on every other position. *)
Theorem position_pointer_length_one (W : list (list R)) (b v : list R)
  (x : list (list R)) :
  (1 <= length x)%nat ->
  position_pointer W b v x 1 = 1 :: repeat 0 (length x - 1).
Proof.
  intros Hn. unfold position_pointer, masked_softmax.
  rewrite mask_logits_split, length_map.
  destruct x as [|r x]; simpl in Hn; [lia|]. simpl firstn.
  destruct (softmax_masked_row [pointer_logit W b v r] (length (r :: x) - 1))
    as [mm ->]; [congruence|].
  simpl. unfold valid_mass, sumR. simpl. f_equal.
  pose proof (exp_pos (pointer_logit W b v r - mm)). field. lra.
Qed.

Lemma position_pointer_length_one_witness :
  (1 <= length [[0]; [2]; [5]])%nat /\
  position_pointer [[1]] [0] [1] [[0]; [2]; [5]] 1 = [1; 0; 0].
Proof.
  split; [simpl; lia|].
  exact (position_pointer_length_one [[1]] [0] [1] [[0]; [2]; [5]]
           ltac:(simpl; lia)).
Defined.

(** ** C4 (amended): for every example whose length is at least 1, two
    feature inputs of the same sequence dimension that agree below the
    length give the same [WeightedSum] output.  At length 0 each coordinate
    of the output is the mean of that coordinate over all positions, padded
    ones included. *)
Theorem weighted_sum_padding_invariant (w : list R) (x1 x2 : list (list R))
  (len : nat) :
  length x1 = length x2 ->
  (forall i, (i < len)%nat -> (i < length x1)%nat -> nth i x1 [] = nth i x2 []) ->
  ((1 <= len)%nat -> weighted_sum w x1 len = weighted_sum w x2 len) /\
  weighted_sum w x1 0
  = map (fun d => sumR (map (fun row => nth d row 0) x1) / INR (length x1))
        (seq 0 (length w)).
Proof.
  intros Hl Hag. split; [intros Hlen | apply weighted_sum_len0].
  assert (Hf : firstn len x2 = firstn len x1)
    by (symmetry; apply firstn_agree with (d := []); auto).
  destruct (Nat.eq_dec (length x1) 0) as [H0 | H0].
  - apply length_zero_iff_nil in H0. subst x1.
    symmetry in Hl. apply length_zero_iff_nil in Hl. subst x2. reflexivity.
  - destruct (weighted_sum_alpha_split w x1 len) as [P [HP [H1 H2]]];
      [exact Hlen | lia |].
    unfold weighted_sum. rewrite H1, (H2 x2) by auto.
    rewrite !weighted_rows_prefix, HP, firstn_min_length, Hl,
      firstn_min_length, Hf.
    reflexivity.
Qed.

Lemma weighted_sum_padding_invariant_witness :
  length [[1]; [7]] = length [[1]; [9]] /\
  weighted_sum [1] [[1]; [7]] 1 = weighted_sum [1] [[1]; [9]] 1 /\
  weighted_sum [1] [[1]; [7]] 0 = [4].
Proof.
  assert (Hl : length [[1]; [7]] = length [[1]; [9]]) by reflexivity.
  split; [exact Hl|].
  destruct (weighted_sum_padding_invariant [1] [[1]; [7]] [[1]; [9]] 1 Hl
              ltac:(intros i Hi _; destruct i; [reflexivity | lia]))
    as [H1 H0].
  split; [exact (H1 ltac:(lia))|].
  rewrite H0. simpl. unfold sumR. simpl. f_equal. lra.
Defined.

(** C4 fails at length 0: the uniform weights of an all-masked row read the
    padded content. *)
Lemma weighted_sum_len0_counterexample :
  weighted_sum [1] [[1]] 0 = [1] /\ weighted_sum [1] [[2]] 0 = [2].
Proof.
  unfold weighted_sum, weighted_rows, weighted_sum_alpha, masked_softmax,
    mask_logits, softmax, sequence_mask, sumR.
  simpl. split; f_equal; field.
Qed.

(** ** [SequenceLength] *)

Lemma sequence_length_row_cons (t : Z) (r : list Z) :
  sequence_length_row (t :: r)
  = ((if cast_bool t then 1 else 0) + sequence_length_row r)%nat.
Proof. reflexivity. Qed.

Lemma sequence_length_row_count (r : list Z) :
  sequence_length_row r = count_non_pad 0 r.
Proof.
  induction r as [|t r IH]; [reflexivity|].
  rewrite sequence_length_row_cons, IH. unfold count_non_pad, cast_bool. simpl.
  destruct (Z.eqb t 0); reflexivity.
Qed.

Lemma sequence_length_row_perm (r1 r2 : list Z) :
  Permutation r1 r2 -> sequence_length_row r1 = sequence_length_row r2.
Proof.
  induction 1 as [|t r1 r2 _ IH|t u r|r1 r2 r3 _ IH1 _ IH2].
  - reflexivity.
  - rewrite !sequence_length_row_cons, IH. reflexivity.
  - rewrite !sequence_length_row_cons. lia.
  - congruence.
Qed.

(** ** C9: [SequenceLength] counts the nonzero tokens of each example (pad
    id 0, wherever the zeros are), and the count does not depend on the
    order of the tokens. *)
Theorem sequence_length_counts_nonzero (x y : list (list Z)) :
  Forall2 (@Permutation Z) x y ->
  sequence_length x = map (count_non_pad 0) x /\
  sequence_length x = sequence_length y.
Proof.
  intros Hp. split.
  - unfold sequence_length. apply map_ext. apply sequence_length_row_count.
  - unfold sequence_length. induction Hp as [|r1 r2 x y Hr _ IH]; simpl;
      [reflexivity|].
    rewrite (sequence_length_row_perm r1 r2 Hr), IH. reflexivity.
Qed.

Lemma sequence_length_counts_nonzero_witness :
  Forall2 (@Permutation Z) [[0; 4; 0; 9]%Z] [[0; 4; 9; 0]%Z] /\
  sequence_length [[0; 4; 0; 9]%Z] = [2%nat].
Proof.
  assert (H : Forall2 (@Permutation Z) [[0; 4; 0; 9]%Z] [[0; 4; 9; 0]%Z])
    by (constructor; [do 2 apply perm_skip; apply perm_swap | constructor]).
  split; [exact H|].
  destruct (sequence_length_counts_nonzero _ _ H) as [-> _]. reflexivity.
Defined.

(** ** C5 (amended): the pad id is 0, not a parameter.  For a right-padded
    example (non-zero tokens followed by zeros), [SequenceLength] is the
    number of non-pad tokens. *)
Theorem sequence_length_right_padded (valid : list Z) (k : nat) :
  Forall (fun t => t <> 0%Z) valid ->
  sequence_length_row (valid ++ repeat 0%Z k) = length valid /\
  sequence_length_row (valid ++ repeat 0%Z k)
  = count_non_pad 0 (valid ++ repeat 0%Z k).
Proof.
  intros Hv. rewrite <- sequence_length_row_count. split; [|reflexivity].
  induction Hv as [|t valid Ht _ IH].
  - rewrite app_nil_l. induction k as [|k IHk]; [reflexivity|].
    change (repeat 0%Z (S k)) with (0%Z :: repeat 0%Z k).
    rewrite sequence_length_row_cons. exact IHk.
  - simpl app. rewrite sequence_length_row_cons, IH. unfold cast_bool.
    apply Z.eqb_neq in Ht. rewrite Ht. reflexivity.
Qed.

Lemma sequence_length_right_padded_witness :
  Forall (fun t => t <> 0%Z) [3; 8]%Z /\
  sequence_length_row ([3; 8]%Z ++ repeat 0%Z 2) = 2%nat.
Proof.
  assert (H : Forall (fun t => t <> 0%Z) [3; 8]%Z)
    by (constructor; [lia | constructor; [lia | constructor]]).
  split; [exact H|].
  exact (proj1 (sequence_length_right_padded [3; 8]%Z 2 H)).
Defined.

(** C5 as stated fails for a pad id other than 0: with pad id 1 the
    right-padded row [5; 1] has one non-pad token, but [SequenceLength]
    counts its two non-zero tokens. *)
Lemma sequence_length_pad_id_counterexample :
  sequence_length [[5; 1]%Z] = [2%nat] /\ count_non_pad 1 [5; 1]%Z = 1%nat.
Proof. split; reflexivity. Qed.

(** ** [IndexSelect] *)

Lemma map_seq_zero (f : nat -> R) (n : nat) :
  (forall j, (j < n)%nat -> f j = 0) -> map f (seq 0 n) = repeat 0 n.
Proof.
  intros H. rewrite <- (length_seq n 0) at 2. rewrite <- map_const.
  apply map_ext_in. intros j Hj. apply in_seq in Hj. apply H. lia.
Qed.

Lemma to_int32_id (i : Z) : (- 2 ^ 31 <= i < 2 ^ 31)%Z -> to_int32 i = i.
Proof.
  intros Hi. unfold to_int32.
  destruct (Z.ltb_spec i 0) as [Hneg | Hnn].
  - assert (Hm : (Z.modulo i (2 ^ 32) = i + 2 ^ 32)%Z).
    { symmetry. apply (Z.mod_unique i (2 ^ 32) (-1))%Z; lia. }
    rewrite Hm. destruct (Z.ltb_spec (i + 2 ^ 32) (2 ^ 31))%Z; lia.
  - rewrite Z.mod_small by lia.
    destruct (Z.ltb_spec i (2 ^ 31))%Z; lia.
Qed.

Lemma one_hot_out (i : Z) (n : nat) :
  (i < 0 \/ Z.of_nat n <= i)%Z -> one_hot i n = repeat 0 n.
Proof.
  intros Hout. unfold one_hot. apply map_seq_zero. intros j Hj.
  unfold b2f. destruct (Z.eqb_spec i (Z.of_nat j)); [lia | reflexivity].
Qed.

Lemma index_select_zero_mask (dim : nat) (x : list (list R)) (i : Z) :
  one_hot (to_int32 i) (length x) = repeat 0 (length x) ->
  index_select dim x i = repeat 0 dim.
Proof.
  intros Hoh. unfold index_select. rewrite Hoh.
  unfold reduce_sum_rows. apply map_seq_zero. intros d _.
  apply sumR_map_zero. intros row Hrow.
  assert (Hz : forall l k,
             In row (zipWith (fun row m => map (fun v => v * m) row) l
                             (repeat 0 k)) ->
             nth d row 0 = 0).
  { induction l as [|r l IH]; intros [|k] Hin; simpl in Hin;
      try contradiction.
    destruct Hin as [<- | Hin]; [|exact (IH k Hin)].
    destruct (Nat.lt_ge_cases d (length r)).
    - rewrite (nth_map_lt _ r d 0 0) by exact H. lra.
    - apply nth_overflow. rewrite length_map. exact H. }
  exact (Hz x (length x) Hrow).
Qed.

(** ** C10 (amended): [IndexSelect] casts the index with [tf.to_int32];
    when the cast index lies outside [[0, seq_len)] the one-hot mask is all
    zero and the output is the zero vector of width [dim].  In particular
    this holds for every index in the int32 range outside [[0, seq_len)]. *)
Theorem index_select_out_of_range (dim : nat) (x : list (list R)) (i : Z) :
  ((to_int32 i < 0 \/ Z.of_nat (length x) <= to_int32 i)%Z ->
   one_hot (to_int32 i) (length x) = repeat 0 (length x) /\
   index_select dim x i = repeat 0 dim) /\
  ((- 2 ^ 31 <= i < 2 ^ 31)%Z -> (i < 0 \/ Z.of_nat (length x) <= i)%Z ->
   index_select dim x i = repeat 0 dim).
Proof.
  split.
  - intros Hout. pose proof (one_hot_out _ (length x) Hout) as Hoh.
    split; [exact Hoh|]. apply index_select_zero_mask. exact Hoh.
  - intros Hr Hout. apply index_select_zero_mask. apply one_hot_out.
    rewrite to_int32_id by exact Hr. exact Hout.
Qed.

Lemma index_select_out_of_range_witness :
  (to_int32 5 < 0 \/ Z.of_nat (length [[1; 2]; [3; 4]]) <= to_int32 5)%Z /\
  index_select 2 [[1; 2]; [3; 4]] 5 = [0; 0] /\
  index_select 2 [[1; 2]; [3; 4]] (-1) = [0; 0].
Proof.
  assert (H : (to_int32 5 < 0 \/ Z.of_nat (length [[1; 2]; [3; 4]])
                                 <= to_int32 5)%Z)
    by (right; vm_compute; discriminate).
  split; [exact H|]. split.
  - exact (proj2 (proj1 (index_select_out_of_range 2 [[1; 2]; [3; 4]] 5) H)).
  - exact (proj2 (index_select_out_of_range 2 [[1; 2]; [3; 4]] (-1))
             ltac:(lia) ltac:(left; lia)).
Defined.

(** C10 as first stated fails for an int64 index outside [[0, seq_len)]:
    [tf.to_int32] wraps [2^32] to [0], so the mask selects row 0 and the
    output is that row, not the zero vector. *)
Lemma index_select_int64_counterexample :
  (Z.of_nat (length [[5]]) <= 2 ^ 32)%Z /\ to_int32 (2 ^ 32) = 0%Z /\
  index_select 1 [[5]] (2 ^ 32) = [5].
Proof.
  assert (Hc : to_int32 (2 ^ 32) = 0%Z) by reflexivity.
  split; [simpl; lia|]. split; [exact Hc|].
  unfold index_select. rewrite Hc.
  unfold one_hot, reduce_sum_rows, sumR. simpl. f_equal. unfold b2f. lra.
Qed.

(** ** [Backward] *)

Lemma reverse_sequence_prefix {A : Type} (valid pad : list A) :
  reverse_sequence (valid ++ pad) (length valid) = Some (rev valid ++ pad).
Proof.
  unfold reverse_sequence. rewrite length_app.
  replace (Nat.leb (length valid) (length valid + length pad)) with true
    by (symmetry; apply Nat.leb_le; lia).
  rewrite firstn_app, firstn_all, Nat.sub_diag, app_nil_r.
  rewrite skipn_app, skipn_all, Nat.sub_diag. reflexivity.
Qed.

(** ** C7: [tf.reverse_sequence] reverses only the valid prefix of length
    [L] and leaves the trailing padding in place; wrapping a layer that acts
    position by position (the identity in particular), [Backward] gives back
    the sequence in its original order. *)
Theorem backward_restores_order {A : Type} (valid pad : list A) (g : A -> A) :
  reverse_sequence (valid ++ pad) (length valid) = Some (rev valid ++ pad) /\
  backward (fun s => s) (valid ++ pad) (length valid) = Some (valid ++ pad) /\
  backward (map g) (valid ++ pad) (length valid)
  = Some (map g (valid ++ pad)).
Proof.
  split; [apply reverse_sequence_prefix|]. split.
  - unfold backward. rewrite reverse_sequence_prefix.
    rewrite <- length_rev, reverse_sequence_prefix, rev_involutive.
    reflexivity.
  - unfold backward. rewrite reverse_sequence_prefix.
    rewrite map_app, map_rev.
    rewrite <- (length_map g valid), <- length_rev, reverse_sequence_prefix,
      rev_involutive, map_app.
    reflexivity.
Qed.

(** ** [WordInQuestionB] *)

Lemma nth_wiq_b (question context : list Z) (clen i : nat) :
  (i < length context)%nat ->
  nth i (wiq_b question context clen) []
  = [b2f (Nat.ltb i clen &&
          existsb (fun qt => Z.eqb (nth i context 0%Z) qt) question)].
Proof.
  intros Hi. unfold wiq_b.
  rewrite (nth_map_lt _ _ i 0) by
    (rewrite length_zipWith, !length_map, length_sequence_mask; lia).
  rewrite (nth_zipWith _ _ _ i 0 0) by
    (rewrite ?length_map, ?length_sequence_mask; lia).
  rewrite (nth_map_lt _ _ i 0%Z) by exact Hi.
  rewrite (nth_map_lt _ _ i false) by (rewrite length_sequence_mask; exact Hi).
  rewrite nth_sequence_mask by exact Hi.
  f_equal. unfold b2f.
  destruct (Nat.ltb i clen), (existsb _ question); simpl; lra.
Qed.

(** ** C2 (amended): at a context position below [context_len] the output
    is 1 exactly when its token equals the token at some position of the
    question sequence, padding included ([WordInQuestionB] takes no question
    length); at every padded context position it is 0.  When the question
    is right-padded with the pad id 0 and the context token is not 0, this
    is membership in the valid question span. *)
Theorem wiq_b_matches (question context : list Z) (clen : nat) :
  length (wiq_b question context clen) = length context /\
  (forall i, (i < length context)%nat -> (i < clen)%nat ->
     nth i (wiq_b question context clen) []
     = [b2f (existsb (fun qt => Z.eqb (nth i context 0%Z) qt) question)]) /\
  (forall i, (clen <= i < length context)%nat ->
     nth i (wiq_b question context clen) [] = [0]) /\
  (forall valid k i, question = valid ++ repeat 0%Z k ->
     (i < length context)%nat -> (i < clen)%nat ->
     nth i context 0%Z <> 0%Z ->
     nth i (wiq_b question context clen) []
     = [b2f (existsb (fun qt => Z.eqb (nth i context 0%Z) qt) valid)]).
Proof.
  split; [|split; [|split]].
  - unfold wiq_b. rewrite length_map, length_zipWith, !length_map,
      length_sequence_mask. lia.
  - intros i Hi Hc. rewrite nth_wiq_b by exact Hi.
    apply Nat.ltb_lt in Hc. rewrite Hc. reflexivity.
  - intros i [Hc Hi]. rewrite nth_wiq_b by exact Hi.
    replace (Nat.ltb i clen) with false by (symmetry; apply Nat.ltb_ge; lia).
    reflexivity.
  - intros valid k i -> Hi Hc Hnz. rewrite nth_wiq_b by exact Hi.
    apply Nat.ltb_lt in Hc. rewrite Hc. simpl. rewrite existsb_app.
    replace (existsb (fun qt => Z.eqb (nth i context 0%Z) qt) (repeat 0%Z k))
      with false.
    + rewrite orb_false_r. reflexivity.
    + symmetry. induction k as [|k IH]; [reflexivity|]. simpl.
      rewrite IH. apply Z.eqb_neq in Hnz. rewrite Hnz. reflexivity.
Qed.

Lemma wiq_b_matches_witness :
  wiq_b [4; 9; 0]%Z [9; 2; 0]%Z 2
  = [[b2f (existsb (fun qt => Z.eqb 9 qt) [4; 9]%Z)];
     [b2f (existsb (fun qt => Z.eqb 2 qt) [4; 9]%Z)]; [0]].
Proof.
  destruct (wiq_b_matches [4; 9; 0]%Z [9; 2; 0]%Z 2) as [Hl [_ [Hpad Hv]]].
  apply nth_ext with (d := []) (d' := []).
  - rewrite Hl. reflexivity.
  - intros i Hi. rewrite Hl in Hi. simpl in Hi.
    destruct i as [|[|[|i]]]; try lia.
    + apply (Hv [4; 9]%Z 1%nat 0%nat); simpl; try reflexivity; lia.
    + apply (Hv [4; 9]%Z 1%nat 1%nat); simpl; try reflexivity; lia.
    + apply Hpad. simpl. lia.
Defined.

(** C2 as stated fails: the question [7; 0] has valid length 1, yet the
    context token 0 at a valid context position matches the question's
    padding and gets 1. *)
Lemma wiq_b_padding_counterexample :
  wiq_b [7; 0]%Z [0; 3]%Z 2 = [[1]; [0]] /\
  existsb (fun qt => Z.eqb 0 qt) (firstn 1 [7; 0]%Z) = false.
Proof.
  split; [|reflexivity].
  unfold wiq_b, sequence_mask, b2f. simpl. repeat f_equal; lra.
Qed.

(** ** [WordInQuestionW] *)

Lemma length_softmax (xs : list flt) : length (softmax xs) = length xs.
Proof. unfold softmax. rewrite !length_map. reflexivity. Qed.

Lemma masked_softmax_sum (logits : list R) (len : nat) :
  (1 <= len)%nat -> (1 <= length logits)%nat ->
  sumR (masked_softmax logits len) = 1.
Proof.
  intros Hlen Hn. unfold masked_softmax. rewrite mask_logits_split.
  assert (Hv : firstn len logits <> []).
  { destruct logits as [|x l]; simpl in Hn; [lia|].
    destruct len; [lia|]. simpl. congruence. }
  destruct (softmax_masked_row _ (length logits - len) Hv) as [mm ->].
  rewrite sumR_app, sumR_repeat0, Rplus_0_r.
  apply sumR_softmax_valid. exact Hv.
Qed.

Lemma map_nth_seq_self (a : list R) :
  map (fun c => nth c a 0) (seq 0 (length a)) = a.
Proof.
  apply nth_ext with (d := 0) (d' := 0).
  - rewrite length_map, length_seq. reflexivity.
  - intros i Hi. rewrite length_map, length_seq in Hi.
    apply (nth_map_seq (fun c => nth c a 0)). exact Hi.
Qed.

Lemma sumR_map_plus {A : Type} (f g : A -> R) (l : list A) :
  sumR (map (fun a => f a + g a) l) = sumR (map f l) + sumR (map g l).
Proof.
  induction l as [|a l IH]; simpl; unfold sumR in *; [lra|]. rewrite IH. lra.
Qed.

Lemma sumR_swap {A B : Type} (F : A -> B -> R) (la : list A) (lb : list B) :
  sumR (map (fun a => sumR (map (fun b => F a b) lb)) la)
  = sumR (map (fun b => sumR (map (fun a => F a b) la)) lb).
Proof.
  induction la as [|a la IH]; simpl.
  - symmetry. apply sumR_map_zero. reflexivity.
  - rewrite (sumR_map_plus (fun b => F a b)
                           (fun b => sumR (map (fun a0 => F a0 b) la))).
    unfold sumR in *. rewrite IH. reflexivity.
Qed.

Lemma zipWith_map_same {A B C D : Type} (h : B -> C -> D) (f : A -> B)
  (g : A -> C) (l : list A) :
  zipWith h (map f l) (map g l) = map (fun a => h (f a) (g a)) l.
Proof. induction l as [|a l IH]; simpl; [reflexivity|]. rewrite IH. reflexivity. Qed.

Lemma length_pair_mask qmax cmax qlen clen :
  length (pair_mask qmax cmax qlen clen) = cmax.
Proof. unfold pair_mask. rewrite length_map. apply length_sequence_mask. Qed.

Lemma nth_pair_mask qmax cmax qlen clen c :
  (c < cmax)%nat ->
  nth c (pair_mask qmax cmax qlen clen) []
  = map (fun q => Nat.ltb c clen && Nat.ltb q qlen) (seq 0 qmax).
Proof.
  intros Hc. unfold pair_mask.
  rewrite (nth_map_lt _ _ c false) by (rewrite length_sequence_mask; exact Hc).
  rewrite nth_sequence_mask by exact Hc.
  unfold sequence_mask. rewrite map_map. reflexivity.
Qed.

Section WiqW.
Variables (w : list R) (question context : list (list R)) (qlen clen : nat).

Let qmax := length question.
Let cmax := length context.
Let L := wiq_w_logits w question context qlen clen.
Let sim (c q : nat) : R :=
  nth q (nth c (wiq_w_similarity w question context) []) 0.

Lemma length_wiq_w_logits : length L = cmax.
Proof.
  unfold L, wiq_w_logits. rewrite length_zipWith, length_pair_mask.
  unfold wiq_w_similarity. rewrite length_map. apply Nat.min_id.
Qed.

Lemma nth_wiq_w_logits (c q : nat) :
  (c < cmax)%nat -> (q < qmax)%nat ->
  nth q (nth c L []) Fmin
  = add_mask_bias (sim c q) (Nat.ltb c clen && Nat.ltb q qlen).
Proof.
  intros Hc Hq. unfold L, wiq_w_logits, sim.
  assert (Hs : length (wiq_w_similarity w question context) = cmax)
    by (unfold wiq_w_similarity; rewrite length_map; reflexivity).
  rewrite (nth_zipWith _ _ _ c [] []) by
    (rewrite ?Hs, ?length_pair_mask; unfold cmax in *; lia).
  rewrite nth_pair_mask by exact Hc.
  assert (Hr : length (nth c (wiq_w_similarity w question context) [])
               = qmax).
  { unfold wiq_w_similarity.
    rewrite (nth_map_lt _ _ c []) by exact Hc. apply length_map. }
  rewrite (nth_zipWith _ _ _ q 0 false) by
    (rewrite ?Hr, ?length_map, ?length_seq; unfold qmax in *; lia).
  f_equal. apply (nth_map_seq (fun q0 => Nat.ltb c clen && Nat.ltb q0 qlen)).
  exact Hq.
Qed.
Lemma col_wiq_w_logits (q : nat) :
  (q < qmax)%nat ->
  col q L
  = map (fun c => add_mask_bias (sim c q) (Nat.ltb c clen && Nat.ltb q qlen))
        (seq 0 cmax).
Proof.
  intros Hq. apply nth_ext with (d := Fmin) (d' := Fmin).
  - unfold col. rewrite !length_map, length_seq, length_wiq_w_logits.
    reflexivity.
  - intros c Hc. unfold col in Hc. rewrite length_map, length_wiq_w_logits in Hc.
    unfold col. rewrite (nth_map_lt _ _ c []) by (rewrite length_wiq_w_logits; exact Hc).
    rewrite nth_wiq_w_logits by assumption.
    symmetry.
    apply (nth_map_seq
             (fun c0 => add_mask_bias (sim c0 q)
                          (Nat.ltb c0 clen && Nat.ltb q qlen))).
    exact Hc.
Qed.

Lemma col_wiq_w_valid (q : nat) :
  (q < qlen)%nat -> (q < qmax)%nat ->
  col q L = mask_logits (map (fun c => sim c q) (seq 0 cmax)) clen.
Proof.
  intros Hql Hq. rewrite col_wiq_w_logits by exact Hq.
  unfold mask_logits, sequence_mask. rewrite length_map, length_seq.
  rewrite zipWith_map_same. apply map_ext. intros c.
  apply Nat.ltb_lt in Hql. rewrite Hql, andb_true_r. reflexivity.
Qed.

Lemma nth_wiq_w (c : nat) :
  (c < cmax)%nat ->
  nth c (wiq_w w question context qlen clen) []
  = [sumR (map (fun q => nth c (softmax (col q L)) 0
                          * b2f (Nat.ltb c clen && Nat.ltb q qlen))
               (seq 0 qmax))].
Proof.
  intros Hc. unfold wiq_w. cbv zeta. fold L. fold qmax. fold cmax.
  assert (HsL : length (softmax_axis1 qmax L) = cmax).
  { unfold softmax_axis1. rewrite length_map, length_seq.
    apply length_wiq_w_logits. }
  rewrite (nth_map_lt _ _ c 0) by
    (rewrite length_zipWith, HsL, length_pair_mask; lia).
  rewrite (nth_zipWith _ _ _ c [] []) by
    (rewrite ?HsL, ?length_pair_mask; lia).
  rewrite nth_pair_mask by exact Hc.
  unfold softmax_axis1. cbv zeta.
  rewrite (nth_map_lt _ _ c 0%nat) by
    (rewrite length_seq, length_wiq_w_logits; exact Hc).
  rewrite seq_nth by (rewrite length_wiq_w_logits; exact Hc). simpl.
  unfold masked_row_sum. rewrite zipWith_map_same.
  f_equal. f_equal. apply map_ext_in. intros q Hq. apply in_seq in Hq.
  rewrite (nth_map_lt _ _ q 0%nat) by (rewrite length_seq; lia).
  rewrite seq_nth by lia. reflexivity.
Qed.
End WiqW.

Lemma length_wiq_w (w : list R) (question context : list (list R))
  (qlen clen : nat) :
  length (wiq_w w question context qlen clen) = length context.
Proof.
  unfold wiq_w, softmax_axis1. cbv zeta.
  rewrite length_map, length_zipWith, length_map, length_seq,
    length_wiq_w_logits, length_pair_mask.
  apply Nat.min_id.
Qed.

Lemma wiq_w_column_mass (w : list R) (question context : list (list R))
  (qlen clen q : nat) :
  (1 <= clen)%nat -> (1 <= length context)%nat -> (q < length question)%nat ->
  sumR (map (fun c => nth c (softmax (col q (wiq_w_logits w question context
                                                 qlen clen))) 0
                      * b2f (Nat.ltb c clen && Nat.ltb q qlen))
            (seq 0 (length context)))
  = b2f (Nat.ltb q qlen).
Proof.
  intros Hcl Hcm Hq. destruct (Nat.ltb_spec q qlen) as [Hql | Hql].
  - rewrite col_wiq_w_valid by assumption.
    set (ls := map (fun c => nth q (nth c (wiq_w_similarity w question context)
                                          []) 0) (seq 0 (length context))).
    assert (Hls : length ls = length context)
      by (unfold ls; rewrite length_map, length_seq; reflexivity).
    destruct (masked_softmax_spec ls clen Hcl ltac:(lia)) as [Ha [_ Hz]].
    change (softmax (mask_logits ls clen)) with (masked_softmax ls clen).
    rewrite (sumR_map_ext _ (fun c => nth c (masked_softmax ls clen) 0)).
    + rewrite <- Hls, <- Ha, map_nth_seq_self.
      apply masked_softmax_sum; lia.
    + intros c Hc. apply in_seq in Hc. simpl in Hc. unfold b2f.
      rewrite andb_true_r. destruct (Nat.ltb_spec c clen).
      * lra.
      * rewrite Hz by lia. lra.
  - apply sumR_map_zero. intros c _.
    rewrite andb_false_r. unfold b2f. lra.
Qed.

(** ** C1 (amended): [WordInQuestionW] normalises the masked similarities
    with a softmax over the CONTEXT axis ([tf.nn.softmax(similarity,
    axis=1)]): for each valid question position, the weights over the valid
    context positions sum to 1.  Multiplied by the mask and summed over the
    question axis, this gives one weight per context position (shape
    [(context_len, 1)] per example): at a valid context position [c] it is
    the sum, over the valid question positions [q], of the masked softmax
    over context positions of the similarities of column [q]; it is 0 at
    every padded context position; and the weights of an example add up to
    its question length. *)
Theorem wiq_w_context_axis (w : list R) (question context : list (list R))
  (qlen clen : nat) :
  (1 <= clen)%nat -> (1 <= length context)%nat ->
  (qlen <= length question)%nat ->
  let out := wiq_w w question context qlen clen in
  length out = length context /\
  (forall c, (c < length context)%nat -> length (nth c out []) = 1%nat) /\
  (forall c, (clen <= c < length context)%nat -> nth c out [] = [0]) /\
  (forall c, (c < clen)%nat -> (c < length context)%nat ->
     nth c out []
     = [sumR (map (fun q =>
          nth c (masked_softmax
                   (map (fun c' => nth q (nth c' (wiq_w_similarity w question
                                                    context) []) 0)
                        (seq 0 (length context))) clen) 0)
          (seq 0 qlen))]) /\
  sumR (map (fun o => nth 0 o 0) out) = INR qlen.
Proof.
  intros Hcl Hcm Hql out. unfold out.
  split; [apply length_wiq_w|].
  split; [intros c Hc; rewrite nth_wiq_w by exact Hc; reflexivity|].
  split; [|split].
  - intros c [Hc1 Hc2]. rewrite nth_wiq_w by exact Hc2. f_equal.
    apply sumR_map_zero. intros q _.
    replace (Nat.ltb c clen) with false by (symmetry; apply Nat.ltb_ge; lia).
    unfold b2f. simpl. lra.
  - intros c Hc1 Hc2. rewrite nth_wiq_w by exact Hc2. f_equal.
    replace (length question) with (qlen + (length question - qlen))%nat
      by lia.
    rewrite seq_app, map_app, sumR_app.
    rewrite (sumR_map_zero _ (seq (0 + qlen) _)).
    2: { intros q Hq. apply in_seq in Hq.
         replace (Nat.ltb q qlen) with false by (symmetry; apply Nat.ltb_ge; lia).
         rewrite andb_false_r. unfold b2f. lra. }
    rewrite Rplus_0_r. apply sumR_map_ext. intros q Hq. apply in_seq in Hq.
    rewrite col_wiq_w_valid by lia.
    apply Nat.ltb_lt in Hc1.
    assert (Hq' : Nat.ltb q qlen = true) by (apply Nat.ltb_lt; lia).
    rewrite Hc1, Hq'. unfold b2f. simpl. rewrite Rmult_1_r. reflexivity.
  - assert (Hout : wiq_w w question context qlen clen
                   = map (fun c => [sumR (map (fun q =>
                        nth c (softmax (col q (wiq_w_logits w question context
                                                 qlen clen))) 0
                        * b2f (Nat.ltb c clen && Nat.ltb q qlen))
                        (seq 0 (length question)))])
                         (seq 0 (length context))).
    { apply nth_ext with (d := []) (d' := []).
      - rewrite length_wiq_w, length_map, length_seq. reflexivity.
      - intros c Hc. rewrite length_wiq_w in Hc.
        rewrite nth_wiq_w by exact Hc. symmetry.
        apply (nth_map_seq (fun c0 => [sumR (map (fun q =>
                 nth c0 (softmax (col q (wiq_w_logits w question context
                                            qlen clen))) 0
                 * b2f (Nat.ltb c0 clen && Nat.ltb q qlen))
                 (seq 0 (length question)))])).
        exact Hc. }
    rewrite Hout, map_map. simpl.
    rewrite (sumR_swap (fun c q =>
               nth c (softmax (col q (wiq_w_logits w question context
                                         qlen clen))) 0
               * b2f (Nat.ltb c clen && Nat.ltb q qlen))).
    rewrite (sumR_map_ext _ (fun q => b2f (Nat.ltb q qlen))).
    + rewrite <- (map_map (fun q => Nat.ltb q qlen) b2f).
      exact (proj2 (proj2 (proj2 (proj2 (sequence_mask_row qlen _ Hql))))).
    + intros q Hq. apply in_seq in Hq.
      apply wiq_w_column_mass; lia.
Qed.

Lemma wiq_w_context_axis_witness :
  sumR (map (fun o => nth 0 o 0) (wiq_w [1] [[0]] [[0]; [0]] 1 2)) = INR 1.
Proof.
  destruct (wiq_w_context_axis [1] [[0]] [[0]; [0]] 1 2)
    as [_ [_ [_ [_ H]]]]; [lia | simpl; lia | simpl; lia |].
  exact H.
Defined.

(** C1 as stated fails: with one question position and two context
    positions of similarity 0, the code spreads the weight of the question
    position over the two context positions (1/2 each), whereas a softmax
    over the question axis followed by the sum over that axis gives 1 at
    each context position. *)
Lemma wiq_w_question_axis_counterexample :
  wiq_w [1] [[0]] [[0]; [0]] 1 2 = [[1 / 2]; [1 / 2]] /\
  wiq_w_question_axis [1] [[0]] [[0]; [0]] 1 2 = [[1]; [1]].
Proof.
  unfold wiq_w, wiq_w_question_axis, wiq_w_logits, softmax_axis1,
    wiq_w_similarity, pair_mask, sequence_mask, col, softmax, masked_row_sum,
    dot, sumR, b2f.
  simpl. replace (0 * 0 * 1 + 0) with 0 by ring.
  rewrite Rmax_left by lra. rewrite Rminus_diag, exp_0.
  split; repeat (match goal with |- (_ :: _) = (_ :: _) => f_equal end);
    field.
Qed.

(** * Further properties of the layers *)

(** ** [IndexSelect] at an index in range *)

Lemma nth_map_scale (row : list R) (m : R) (d : nat) :
  nth d (map (fun v => v * m) row) 0 = nth d row 0 * m.
Proof.
  revert d; induction row as [|a row IH]; intros [|d]; simpl; auto; lra.
Qed.

Lemma one_hot_nat (i : Z) (n : nat) :
  (0 <= i)%Z ->
  one_hot i n = map (fun j => b2f (Nat.eqb (Z.to_nat i) j)) (seq 0 n).
Proof.
  intros Hi. unfold one_hot. apply map_ext. intros j. f_equal.
  destruct (Z.eqb_spec i (Z.of_nat j)), (Nat.eqb_spec (Z.to_nat i) j);
    auto; exfalso; lia.
Qed.

Lemma sum_one_hot_rows (d k : nat) (x : list (list R)) (s : nat) :
  sumR (map (fun row => nth d row 0)
            (zipWith (fun row m => map (fun v => v * m) row) x
                     (map (fun j => b2f (Nat.eqb k j)) (seq s (length x)))))
  = if (s <=? k) && (k <? s + length x) then nth d (nth (k - s) x []) 0
    else 0.
Proof.
  revert s; induction x as [|row x IH]; intros s; simpl.
  - destruct (Nat.leb_spec s k), (Nat.ltb_spec k (s + 0)); simpl;
      try lia; reflexivity.
  - unfold sumR in *. rewrite IH, nth_map_scale. unfold b2f.
    destruct (Nat.eqb_spec k s) as [->|Hks].
    + rewrite Nat.leb_refl, Nat.sub_diag.
      replace (S s <=? s) with false by (symmetry; apply Nat.leb_gt; lia).
      replace (s <? s + S (length x)) with true by (symmetry; apply Nat.ltb_lt; lia).
      simpl. lra.
    + destruct (Nat.leb_spec s k), (Nat.leb_spec (S s) k),
        (Nat.ltb_spec k (s + S (length x))), (Nat.ltb_spec k (S s + length x));
        simpl; try lia; try lra.
      replace (k - s)%nat with (S (k - S s)) by lia. simpl. lra.
Qed.

(** X1: for an index inside [[0, seq_len)], [seq_len] within the int32
    range of [K.one_hot]'s depth, and rows of width [dim], [IndexSelect]
    returns the row at that index (a gather). *)
Theorem index_select_in_range (dim : nat) (x : list (list R)) (i : Z) :
  (Z.of_nat (length x) <= 2 ^ 31)%Z ->
  (0 <= i)%Z -> (i < Z.of_nat (length x))%Z ->
  Forall (fun row => length row = dim) x ->
  index_select dim x i = nth (Z.to_nat i) x [].
Proof.
  intros H31 H0 H1 Hw. unfold index_select, reduce_sum_rows.
  rewrite to_int32_id by lia.
  rewrite one_hot_nat by exact H0.
  assert (Hk : (Z.to_nat i < length x)%nat) by lia.
  assert (Hr : length (nth (Z.to_nat i) x []) = dim).
  { rewrite Forall_forall in Hw. apply Hw. apply nth_In. exact Hk. }
  rewrite <- (map_nth_seq_self (nth (Z.to_nat i) x [])), Hr.
  apply map_ext. intros d. rewrite sum_one_hot_rows.
  replace ((0 <=? Z.to_nat i) && (Z.to_nat i <? 0 + length x)) with true
    by (symmetry; apply andb_true_iff; split; [apply Nat.leb_le | apply Nat.ltb_lt]; lia).
  rewrite Nat.sub_0_r. reflexivity.
Qed.

Lemma index_select_in_range_witness :
  index_select 2 [[1; 2]; [3; 4]] 1 = [3; 4].
Proof.
  apply (index_select_in_range 2 [[1; 2]; [3; 4]] 1);
    [simpl; lia | lia | simpl; lia |].
  constructor; [reflexivity | constructor; [reflexivity | constructor]].
Defined.

(** ** [Argmax] *)

Lemma argmax_from_spec (t : list R) : forall i best bv,
  let p := argmax_from t i best bv in
  bv <= snd p /\ Forall (fun a => a <= snd p) t /\
  ((fst p = best /\ snd p = bv) \/
   ((i <= fst p < i + length t)%nat /\ nth (fst p - i) t 0 = snd p)).
Proof.
  induction t as [|a t IH]; intros i best bv; simpl.
  - split; [lra|]. split; [constructor|]. left. auto.
  - destruct (Rlt_dec bv a) as [Hlt|Hge].
    + destruct (IH (S i) i a) as [Ha [Ht Hr]].
      split; [lra|]. split; [constructor; assumption|]. right.
      destruct Hr as [[-> ->] | [Hb Hn]].
      * split; [lia|]. rewrite Nat.sub_diag. reflexivity.
      * split; [lia|]. replace (fst (argmax_from t (S i) i a) - i)%nat
          with (S (fst (argmax_from t (S i) i a) - S i)) by lia.
        exact Hn.
    + destruct (IH (S i) best bv) as [Hb [Ht Hr]].
      split; [exact Hb|]. split; [constructor; [lra | exact Ht]|].
      destruct Hr as [Hl | [Hb' Hn]]; [left; exact Hl|]. right.
      split; [lia|]. replace (fst (argmax_from t (S i) best bv) - i)%nat
        with (S (fst (argmax_from t (S i) best bv) - S i)) by lia.
      exact Hn.
Qed.

Lemma argmax_spec (x : list R) (r : nat) :
  argmax x = Some r ->
  (r < length x)%nat /\ (forall j, (j < length x)%nat -> nth j x 0 <= nth r x 0).
Proof.
  destruct x as [|a t]; cbn [argmax]; [discriminate|].
  intros Hr. injection Hr as <-.
  destruct (argmax_from_spec t 1 0 a) as [Ha [Ht Hr]].
  set (p := argmax_from t 1 0 a) in *.
  assert (Hval : (fst p < S (length t))%nat /\ nth (fst p) (a :: t) 0 = snd p).
  { destruct Hr as [[-> ->] | [Hb Hn]]; [split; [lia | reflexivity]|].
    split; [lia|]. replace (fst p) with (S (fst p - 1)) by lia. exact Hn. }
  destruct Hval as [Hlt Hn]. split; [exact Hlt|].
  intros j Hj. fold p. rewrite Hn. destruct j as [|j]; [exact Ha|].
  simpl. rewrite Forall_forall in Ht. apply Ht. apply nth_In. simpl in Hj. lia.
Qed.

(** X2: on a non-empty row, [Argmax] returns a single index inside the row
    whose entry is maximal. *)
Theorem argmax_layer_max (x : list R) :
  x <> [] ->
  exists r, argmax_layer x = Some [Z.of_nat r] /\ (r < length x)%nat /\
    (forall j, (j < length x)%nat -> nth j x 0 <= nth r x 0).
Proof.
  intros Hx. unfold argmax_layer.
  destruct (argmax x) as [r|] eqn:E.
  - exists r. split; [reflexivity|]. apply argmax_spec. exact E.
  - destruct x; [congruence | discriminate].
Qed.

Lemma argmax_layer_max_witness :
  exists r, argmax_layer [1; 3; 2] = Some [Z.of_nat r] /\
    (r < length [1; 3; 2])%nat /\
    (forall j, (j < length [1; 3; 2])%nat -> nth j [1; 3; 2] 0 <= nth r [1; 3; 2] 0).
Proof. apply argmax_layer_max. discriminate. Defined.

(** ** Ranges of the masked softmax weights *)

Lemma masked_softmax_pos_split (logits : list R) (len : nat) :
  (1 <= len)%nat -> (1 <= length logits)%nat ->
  exists P, masked_softmax logits len = P ++ repeat 0 (length logits - len) /\
    length P = Nat.min len (length logits) /\
    Forall (fun a => 0 < a) P /\ sumR P = 1.
Proof.
  intros Hlen Hn. unfold masked_softmax. rewrite mask_logits_split.
  assert (Hv : firstn len logits <> []).
  { destruct logits as [|x l]; simpl in Hn; [lia|].
    destruct len; [lia|]. simpl. congruence. }
  destruct (softmax_masked_row _ (length logits - len) Hv) as [mm ->].
  eexists. split; [reflexivity|]. split; [|split].
  - rewrite length_map, length_firstn. reflexivity.
  - apply Forall_forall. intros a Ha. apply in_map_iff in Ha.
    destruct Ha as [r [<- _]]. pose proof (exp_pos (r - mm)).
    pose proof (valid_mass_pos mm _ Hv). unfold Rdiv.
    apply Rmult_lt_0_compat; [lra | apply Rinv_0_lt_compat; lra].
  - apply sumR_softmax_valid. exact Hv.
Qed.

Lemma in_le_sumR (a : R) (l : list R) :
  Forall (fun v => 0 <= v) l -> In a l -> a <= sumR l.
Proof.
  induction 1 as [|b l Hb Hl IH]; simpl; [contradiction|].
  pose proof (sumR_nonneg l Hl). intros [-> | Hin]; unfold sumR in *.
  - lra.
  - specialize (IH Hin). lra.
Qed.

Lemma masked_softmax_range (logits : list R) (len : nat) (i : nat) :
  (1 <= len)%nat -> (i < length logits)%nat ->
  let a := masked_softmax logits len in
  0 <= nth i a 0 <= 1 /\ ((i < len)%nat -> 0 < nth i a 0).
Proof.
  intros Hlen Hi a. unfold a.
  destruct (masked_softmax_pos_split logits len Hlen ltac:(lia))
    as [P [-> [HP [Hpos Hsum]]]].
  destruct (Nat.lt_ge_cases i (length P)) as [HiP | HiP].
  - rewrite app_nth1 by exact HiP.
    assert (Hin : In (nth i P 0) P) by (apply nth_In; exact HiP).
    rewrite Forall_forall in Hpos. pose proof (Hpos _ Hin).
    assert (nth i P 0 <= sumR P).
    { apply in_le_sumR; [|exact Hin]. apply Forall_forall.
      intros v Hv. left. apply Hpos. exact Hv. }
    split; [lra | intros; lra].
  - rewrite app_nth2 by exact HiP.
    rewrite nth_repeat_lt by (rewrite HP in HiP; lia).
    split; [lra|]. intros. lia.
Qed.

(** X3: every weight of [PositionPointer] and of the softmax inside
    [WeightedSum] lies in [[0, 1]] (length at least 1). *)
Theorem attention_weight_range (w : list R) (W : list (list R)) (b v : list R)
  (x : list (list R)) (len i : nat) :
  (1 <= len)%nat -> (i < length x)%nat ->
  0 <= nth i (position_pointer W b v x len) 0 <= 1 /\
  0 <= nth i (weighted_sum_alpha w x len) 0 <= 1.
Proof.
  intros Hlen Hi. split.
  - apply masked_softmax_range; [exact Hlen | rewrite length_map; exact Hi].
  - apply masked_softmax_range; [exact Hlen | rewrite length_map; exact Hi].
Qed.

Lemma attention_weight_range_witness :
  0 <= nth 1 (position_pointer [[1]] [0] [1] [[0]; [2]] 1) 0 <= 1.
Proof.
  exact (proj1 (attention_weight_range [1] [[1]] [0] [1] [[0]; [2]] 1 1
                  ltac:(lia) ltac:(simpl; lia))).
Defined.

(** X4: the index that [Argmax] picks from a [PositionPointer]
    distribution (length at least 1) is a valid position, below the
    length, and [IndexSelect] at that index returns the feature row there
    ([seq_len] within the int32 range of the cast index); this is how the start index conditions the end pointer. *)
Theorem pointer_argmax_valid (W : list (list R)) (b v : list R)
  (x : list (list R)) (len dim : nat) :
  (1 <= len)%nat -> (1 <= length x)%nat ->
  (Z.of_nat (length x) <= 2 ^ 31)%Z ->
  Forall (fun row => length row = dim) x ->
  exists r, argmax (position_pointer W b v x len) = Some r /\
    (r < len)%nat /\ (r < length x)%nat /\
    index_select dim x (Z.of_nat r) = nth r x [].
Proof.
  intros Hlen Hn H31 Hw.
  set (p := position_pointer W b v x len).
  assert (Hlp : length p = length x).
  { unfold p, position_pointer, masked_softmax, softmax, mask_logits.
    rewrite !length_map, length_zipWith, length_sequence_mask, length_map.
    apply Nat.min_id. }
  destruct (argmax p) as [r|] eqn:E.
  2: { destruct p as [|a t] eqn:Ep; [simpl in Hlp; lia | discriminate]. }
  destruct (argmax_spec p r E) as [Hr Hmax].
  assert (Hrl : (r < len)%nat).
  { destruct (Nat.lt_ge_cases r len) as [H | H]; [exact H|].
    exfalso.
    destruct (masked_softmax_range (map (pointer_logit W b v) x) len 0 Hlen
                ltac:(rewrite length_map; lia)) as [_ Hpos0].
    pose proof (Hpos0 ltac:(lia)) as H0.
    fold (position_pointer W b v x len) in H0. fold p in H0.
    pose proof (Hmax 0%nat ltac:(lia)) as H1.
    destruct (masked_softmax_pos_split (map (pointer_logit W b v) x) len Hlen
                ltac:(rewrite length_map; lia)) as [P [HP [HlP _]]].
    fold (position_pointer W b v x len) in HP. fold p in HP.
    assert (Hz : nth r p 0 = 0).
    { rewrite HP, app_nth2 by (rewrite HlP; lia).
      apply nth_repeat_lt. rewrite HlP, length_map in *. lia. }
    lra. }
  exists r. split; [reflexivity|]. split; [exact Hrl|]. split; [lia|].
  rewrite index_select_in_range by (lia || exact Hw).
  rewrite Nat2Z.id. reflexivity.
Qed.

Lemma pointer_argmax_valid_witness :
  exists r, argmax (position_pointer [[1]] [0] [1] [[0]; [2]] 1) = Some r /\
    (r < 1)%nat /\ (r < 2)%nat /\
    index_select 1 [[0]; [2]] (Z.of_nat r) = nth r [[0]; [2]] [].
Proof.
  apply (pointer_argmax_valid [[1]] [0] [1] [[0]; [2]] 1 1);
    [lia | simpl; lia | simpl; lia |].
  constructor; [reflexivity | constructor; [reflexivity | constructor]].
Defined.

(** ** [WeightedSum] is a convex combination of the valid rows *)

Lemma sumR_zipWith_convex (P : list R) (rows : list (list R)) (d : nat)
  (lo hi : R) :
  length P = length rows -> Forall (fun a => 0 <= a) P ->
  Forall (fun row => lo <= nth d row 0 <= hi) rows ->
  lo * sumR P <= sumR (zipWith (fun a row => a * nth d row 0) P rows)
  <= hi * sumR P.
Proof.
  revert rows; induction P as [|a P IH]; intros [|row rows] Hl Hp Hr;
    simpl in *; try lia; unfold sumR in *; [lra|].
  inversion Hp as [|? ? Ha Hp']; subst. inversion Hr as [|? ? Hrow Hr']; subst.
  destruct (IH rows ltac:(lia) Hp' Hr') as [IH1 IH2].
  destruct Hrow as [Hlo Hhi].
  split; nra.
Qed.

(** X5: for an example of length at least 1, each coordinate of the
    [WeightedSum] output lies between the smallest and the largest value of
    that coordinate over the valid rows. *)
Theorem weighted_sum_convex (w : list R) (x : list (list R)) (len d : nat)
  (lo hi : R) :
  (1 <= len)%nat -> (1 <= length x)%nat -> (d < length w)%nat ->
  (forall i, (i < len)%nat -> (i < length x)%nat ->
     lo <= nth d (nth i x []) 0 <= hi) ->
  lo <= nth d (weighted_sum w x len) 0 <= hi.
Proof.
  intros Hlen Hn Hd Hb.
  destruct (masked_softmax_pos_split (map (fun row => dot row w) x) len Hlen
              ltac:(rewrite length_map; lia)) as [P [HP [HlP [Hpos Hsum]]]].
  rewrite length_map in HP, HlP.
  unfold weighted_sum, weighted_sum_alpha. rewrite HP, weighted_rows_prefix.
  unfold weighted_rows.
  rewrite (nth_map_lt _ _ d 0%nat) by (rewrite length_seq; exact Hd).
  rewrite seq_nth by exact Hd. simpl.
  rewrite <- (Rmult_1_r lo), <- (Rmult_1_r hi), <- Hsum.
  apply sumR_zipWith_convex.
  - rewrite length_firstn. lia.
  - apply Forall_forall. intros a Ha. rewrite Forall_forall in Hpos.
    left. apply Hpos. exact Ha.
  - apply Forall_forall. intros row Hrow.
    apply In_nth with (d := []) in Hrow. destruct Hrow as [i [Hi <-]].
    rewrite length_firstn in Hi. rewrite nth_firstn.
    replace (i <? length P)%nat with true by (symmetry; apply Nat.ltb_lt; lia).
    apply Hb; lia.
Qed.

Lemma weighted_sum_convex_witness :
  1 <= nth 0 (weighted_sum [1] [[1]; [3]; [100]] 2) 0 <= 3.
Proof.
  apply weighted_sum_convex; [lia | simpl; lia | simpl; lia |].
  intros i Hi _. destruct i as [|[|i]]; simpl; lra || lia.
Defined.

(** X6: [PositionPointer] does not read the padded positions: two feature
    inputs with the same sequence dimension that agree below the length
    give the same distribution (for every length, 0 included). *)
Theorem position_pointer_padding_invariant (W : list (list R)) (b v : list R)
  (x1 x2 : list (list R)) (len : nat) :
  length x1 = length x2 ->
  (forall i, (i < len)%nat -> (i < length x1)%nat -> nth i x1 [] = nth i x2 []) ->
  position_pointer W b v x1 len = position_pointer W b v x2 len.
Proof.
  intros Hl Hag. unfold position_pointer, masked_softmax.
  rewrite !mask_logits_split, !length_map, !firstn_map, Hl.
  rewrite (firstn_agree len x1 x2 [] Hl Hag). reflexivity.
Qed.

Lemma position_pointer_padding_invariant_witness :
  position_pointer [[1]] [0] [1] [[4]; [7]] 1
  = position_pointer [[1]] [0] [1] [[4]; [-3]] 1.
Proof.
  apply position_pointer_padding_invariant; [reflexivity |].
  intros i Hi _. destruct i; [reflexivity | lia].
Defined.

(** ** [SequenceLength] and the padding it does not count *)

(** X7: [SequenceLength] plus the number of zero tokens of an example is
    the length of the example; in particular it never exceeds the
    sequence dimension, so the masks built from it have at most
    [max_len] true entries. *)
Theorem sequence_length_plus_zeros (row : list Z) :
  (sequence_length_row row + count_occ Z.eq_dec row 0%Z = length row)%nat /\
  (sequence_length_row row <= length row)%nat.
Proof.
  assert (H : (sequence_length_row row + count_occ Z.eq_dec row 0%Z
               = length row)%nat).
  { induction row as [|t row IH]; [reflexivity|].
    rewrite sequence_length_row_cons. simpl. unfold cast_bool.
    destruct (Z.eq_dec t 0) as [->|Hne]; simpl.
    - lia.
    - apply Z.eqb_neq in Hne. rewrite Hne. simpl. lia. }
  split; [exact H | lia].
Qed.

(** ** [tf.reverse_sequence] *)

(** X8: [tf.reverse_sequence] with a length within the sequence dimension
    is undone by a second application with the same length; a length
    beyond the sequence dimension is an error, and [Backward] then fails
    whatever layer it wraps. *)
Theorem reverse_sequence_roundtrip {A B : Type} (x : list A) (len : nat)
  (layer : list A -> list B) :
  ((len <= length x)%nat ->
   exists y, reverse_sequence x len = Some y /\
             reverse_sequence y len = Some x) /\
  ((length x < len)%nat ->
   reverse_sequence x len = None /\ backward layer x len = None).
Proof.
  split.
  - intros Hle. exists (rev (firstn len x) ++ skipn len x). split.
    + unfold reverse_sequence.
      replace (Nat.leb len (length x)) with true
        by (symmetry; apply Nat.leb_le; exact Hle).
      reflexivity.
    + assert (Hf : len = length (rev (firstn len x)))
        by (rewrite length_rev, length_firstn; lia).
      rewrite Hf at 3. rewrite reverse_sequence_prefix, rev_involutive,
        firstn_skipn. reflexivity.
  - intros Hlt. unfold backward, reverse_sequence.
    replace (Nat.leb len (length x)) with false
      by (symmetry; apply Nat.leb_gt; exact Hlt).
    split; reflexivity.
Qed.

Lemma reverse_sequence_roundtrip_witness :
  reverse_sequence [1; 2; 3; 0]%Z 3 = Some [3; 2; 1; 0]%Z /\
  reverse_sequence [3; 2; 1; 0]%Z 3 = Some [1; 2; 3; 0]%Z /\
  backward (fun s : list Z => s) [1; 2]%Z 3 = None.
Proof.
  destruct (reverse_sequence_roundtrip [1; 2; 3; 0]%Z 3 (fun s : list Z => s))
    as [H1 _].
  destruct (H1 ltac:(simpl; lia)) as [y [Hy Hback]].
  assert (Hy' : y = [3; 2; 1; 0]%Z) by (vm_compute in Hy; congruence).
  subst y. split; [exact Hy|]. split; [exact Hback|].
  destruct (reverse_sequence_roundtrip [1; 2]%Z 3 (fun s : list Z => s))
    as [_ H2].
  exact (proj2 (H2 ltac:(simpl; lia))).
Defined.

(** ** [WordInQuestionW] does not read padded rows *)

Lemma masked_softmax_prefix (l1 l2 : list R) (len : nat) :
  length l1 = length l2 -> firstn len l1 = firstn len l2 ->
  masked_softmax l1 len = masked_softmax l2 len.
Proof.
  intros Hl Hf. unfold masked_softmax. rewrite !mask_logits_split, Hl, Hf.
  reflexivity.
Qed.

Lemma nth_wiq_w_similarity (w : list R) (question context : list (list R))
  (c q : nat) :
  (c < length context)%nat -> (q < length question)%nat ->
  nth q (nth c (wiq_w_similarity w question context) []) 0
  = dot (zipWith Rmult (nth c context []) (nth q question [])) w.
Proof.
  intros Hc Hq. unfold wiq_w_similarity.
  rewrite (nth_map_lt _ _ c []) by exact Hc.
  rewrite (nth_map_lt _ _ q []) by exact Hq. reflexivity.
Qed.

Lemma in_firstn_seq (c len n : nat) :
  In c (firstn len (seq 0 n)) -> (c < len)%nat /\ (c < n)%nat.
Proof.
  intros Hin. apply In_nth with (d := 0%nat) in Hin.
  destruct Hin as [k [Hk <-]]. rewrite length_firstn, length_seq in Hk.
  rewrite nth_firstn.
  replace (k <? len)%nat with true by (symmetry; apply Nat.ltb_lt; lia).
  rewrite seq_nth by lia. lia.
Qed.

(** X9: [WordInQuestionW] does not read the padded rows: two question
    inputs that agree below [question_len] and two context inputs that
    agree below [context_len] (same shapes) give the same output. *)
Theorem wiq_w_padding_invariant (w : list R) (q1 q2 c1 c2 : list (list R))
  (qlen clen : nat) :
  length q1 = length q2 -> length c1 = length c2 ->
  (forall j, (j < qlen)%nat -> (j < length q1)%nat -> nth j q1 [] = nth j q2 []) ->
  (forall i, (i < clen)%nat -> (i < length c1)%nat -> nth i c1 [] = nth i c2 []) ->
  wiq_w w q1 c1 qlen clen = wiq_w w q2 c2 qlen clen.
Proof.
  intros Hq Hc Hqa Hca.
  apply nth_ext with (d := []) (d' := []).
  - rewrite !length_wiq_w. exact Hc.
  - intros c Hcl. rewrite length_wiq_w in Hcl.
    rewrite !nth_wiq_w by lia. rewrite <- Hq. f_equal. f_equal.
    apply map_ext_in. intros q Hin. apply in_seq in Hin.
    destruct (Nat.ltb_spec c clen) as [Hcc|Hcc];
      destruct (Nat.ltb_spec q qlen) as [Hqq|Hqq]; simpl;
      unfold b2f; try (rewrite !Rmult_0_r; reflexivity).
    rewrite !col_wiq_w_valid by lia. try rewrite <- Hc.
    change (softmax (mask_logits ?l clen)) with (masked_softmax l clen).
    f_equal. f_equal. apply masked_softmax_prefix.
    + rewrite !length_map. reflexivity.
    + rewrite !firstn_map. apply map_ext_in. intros c' Hc'.
      apply in_firstn_seq in Hc'.
      rewrite !nth_wiq_w_similarity by lia.
      rewrite (Hca c') by lia. rewrite (Hqa q) by lia. reflexivity.
Qed.

Lemma wiq_w_padding_invariant_witness :
  wiq_w [1] [[1]; [5]] [[2]; [3]] 1 1 = wiq_w [1] [[1]; [-8]] [[2]; [0]] 1 1.
Proof.
  apply wiq_w_padding_invariant; try reflexivity.
  - intros j Hj _. destruct j; [reflexivity | lia].
  - intros i Hi _. destruct i; [reflexivity | lia].
Defined.

(** X10: every [WordInQuestionW] weight lies between 0 and the question
    length (each valid question position contributes a softmax weight of
    at most 1). *)
Theorem wiq_w_range (w : list R) (question context : list (list R))
  (qlen clen c : nat) :
  (qlen <= length question)%nat -> (c < length context)%nat ->
  0 <= nth 0 (nth c (wiq_w w question context qlen clen) []) 0 <= INR qlen.
Proof.
  intros Hql Hc. rewrite nth_wiq_w by exact Hc. simpl.
  assert (Hterm : forall q, In q (seq 0 (length question)) ->
    0 <= nth c (softmax (col q (wiq_w_logits w question context qlen clen))) 0
         * b2f (Nat.ltb c clen && Nat.ltb q qlen)
    <= b2f (Nat.ltb q qlen)).
  { intros q Hq. apply in_seq in Hq.
    destruct (Nat.ltb_spec c clen) as [Hcc|Hcc];
      destruct (Nat.ltb_spec q qlen) as [Hqq|Hqq]; simpl; unfold b2f;
      try (rewrite Rmult_0_r; lra).
    rewrite col_wiq_w_valid by lia.
    change (softmax (mask_logits ?l clen)) with (masked_softmax l clen).
    destruct (masked_softmax_range
                (map (fun c0 => nth q (nth c0 (wiq_w_similarity w question
                                                 context) []) 0)
                     (seq 0 (length context))) clen c ltac:(lia)
                ltac:(rewrite length_map, length_seq; lia)) as [H _].
    rewrite Rmult_1_r. exact H. }
  assert (Hsum : sumR (map (fun q => b2f (Nat.ltb q qlen))
                           (seq 0 (length question))) = INR qlen).
  { rewrite <- (map_map (fun q => Nat.ltb q qlen) b2f).
    exact (proj2 (proj2 (proj2 (proj2 (sequence_mask_row qlen _ Hql))))). }
  rewrite <- Hsum. clear Hsum.
  induction (seq 0 (length question)) as [|q l IH]; simpl; unfold sumR in *;
    [lra|].
  destruct (Hterm q (or_introl eq_refl)) as [H1 H2].
  destruct (IH (fun q' Hq' => Hterm q' (or_intror Hq'))) as [H3 H4].
  lra.
Qed.

Lemma wiq_w_range_witness :
  0 <= nth 0 (nth 0 (wiq_w [1] [[1]; [2]] [[3]; [4]] 2 2) []) 0 <= INR 2.
Proof. apply wiq_w_range; simpl; lia. Defined.
